(** * TopN majority voting of similari (src/track/voting/topn.rs)

    Shallow embedding of [TopNVoting::winners]:
    - [f32] values are IEEE binary32 numbers, modelled with the Standard
      Library's [spec_float] (precision 24, emax 128); Rust's [<=] on [f32]
      is [SFleb], which is [false] as soon as one operand is NaN;
    - the [HashMap<&u64, usize>] built by [Itertools::counts] is a
      [gmap N nat]; its iteration order is not specified by Rust (it
      depends on the per-map random hasher state), so [into_iter] is
      modelled by an arbitrary [order] function whose result is a
      permutation of the map's entries ([hash_order_ok]);
    - [sort_by] with the comparator [r.votes.partial_cmp(&l.votes).unwrap()]
      is a stable sort driven by a fallible comparator: a [None] from
      [partial_cmp] is the panic of [unwrap] and makes the whole call
      return [None]. *)

From Stdlib Require Import ZArith NArith Lia Sorted Permutation.
From Stdlib Require Import Floats.SpecFloat.
From stdpp Require Import base list gmap sorting.

(** ** Rust's [f32] *)

Definition f32 : Type := spec_float.
Definition f32_prec : Z := 24.
Definition f32_emax : Z := 128.

(** [a <= b] on [f32] (IEEE comparison: false when either side is NaN). *)
Definition f32_le (a b : f32) : bool := SFleb a b.

(** [a == b] on [f32]. *)
Definition f32_eq (a b : f32) : bool := SFeqb a b.

Definition f32_nan : f32 := S754_nan.

(** An integer, rounded to [f32]. *)
Definition f32_of_Z (n : Z) : f32 := binary_normalize f32_prec f32_emax n 0 false.

(** The [f32] literal [num/den] (e.g. [0.32] is [f32_lit 32 100]): the
    correctly rounded quotient, which is how rustc reads a decimal literal. *)
Definition f32_lit (num den : Z) : f32 :=
  SFdiv f32_prec f32_emax (f32_of_Z num) (f32_of_Z den).

(** ** Data *)

(** [ObservationMetricResult<f32>(track, f_attr_dist, feat_dist)] *)
Record ObservationMetricResult := ObservationMetricResult' {
  omr_track : N;
  omr_attr_dist : option f32;
  omr_feat_dist : option f32
}.

Record TopNVoting := TopNVoting' {
  topn : nat;
  max_distance : f32;
  min_votes : nat
}.

Record TopNVotingElt := TopNVotingElt' {
  track_id : N;
  votes : nat
}.

Global Instance TopNVotingElt_eq_dec : EqDecision TopNVotingElt.
Proof. solve_decision. Defined.

(** ** [winners], step by step *)

(** The [filter] closure. *)
Definition feat_filter (cfg : TopNVoting) (r : ObservationMetricResult) : bool :=
  match omr_feat_dist r with
  | Some e => f32_le e (max_distance cfg)
  | None => false
  end.

(** [distances.iter().filter(..).map(|..| track).collect()] *)
Definition filtered_tracks (cfg : TopNVoting) (ds : list ObservationMetricResult)
    : list N :=
  map omr_track (List.filter (feat_filter cfg) ds).

(** [tracks.sort_unstable()]: on [u64] equal elements are indistinguishable,
    so any sorting algorithm gives this result. *)
Definition sort_unstable (l : list N) : list N := merge_sort (≤)%N l.

(** One step of [Itertools::counts]: [*counts.entry(item).or_default() += 1]. *)
Definition counts_step (m : gmap N nat) (t : N) : gmap N nat :=
  <[t := default 0 (m !! t) + 1]> m.

(** [Itertools::counts] *)
Definition counts (l : list N) : gmap N nat := fold_left counts_step l ∅.

(** The iteration order of a [HashMap]: any enumeration of its entries. *)
Definition hash_order_ok (order : gmap N nat -> list (N * nat)) : Prop :=
  forall m, order m ≡ₚ map_to_list m.

(** [.filter(|(_, count)| *count >= self.min_votes).map(..).collect()] *)
Definition threshold (cfg : TopNVoting) (it : list (N * nat)) : list TopNVotingElt :=
  map (fun '(e, c) => TopNVotingElt' e c)
      (List.filter (fun '(_, c) => min_votes cfg <=? c) it).

(** [usize::partial_cmp] *)
Definition partial_cmp_usize (a b : nat) : option comparison := Some (Nat.compare a b).

(** The comparator [|l, r| r.votes.partial_cmp(&l.votes)], before [unwrap]. *)
Definition votes_cmp (l r : TopNVotingElt) : option comparison :=
  partial_cmp_usize (votes r) (votes l).

Section SortBy.
Context {A : Type}.
Variable cmp : A -> A -> option comparison.

(** Insert [x] in front of the first element it is not [Greater] than;
    [None] is a failed [unwrap]. *)
Fixpoint insert_by (x : A) (l : list A) : option (list A) :=
  match l with
  | [] => Some [x]
  | y :: l' =>
      match cmp x y with
      | None => None
      | Some Gt =>
          match insert_by x l' with
          | Some l'' => Some (y :: l'')
          | None => None
          end
      | Some _ => Some (x :: y :: l')
      end
  end.

(** [slice::sort_by]: a stable sort. Stable sorts with the same
    comparator agree on their result, so this insertion sort stands for
    the library's merge sort. *)
Fixpoint sort_by (l : list A) : option (list A) :=
  match l with
  | [] => Some []
  | x :: l' =>
      match sort_by l' with
      | Some s => insert_by x s
      | None => None
      end
  end.
End SortBy.

(** [Vec::truncate] *)
Definition truncate {A} (n : nat) (l : list A) : list A := firstn n l.

(** The identities that survive the threshold step, in hash-map order. *)
Definition survivors (order : gmap N nat -> list (N * nat)) (cfg : TopNVoting)
    (ds : list ObservationMetricResult) : list TopNVotingElt :=
  threshold cfg (order (counts (sort_unstable (filtered_tracks cfg ds)))).

(** [TopNVoting::winners]; [None] is a panic. *)
Definition winners (order : gmap N nat -> list (N * nat)) (cfg : TopNVoting)
    (ds : list ObservationMetricResult) : option (list TopNVotingElt) :=
  match sort_by votes_cmp (survivors order cfg ds) with
  | Some s => Some (truncate (topn cfg) s)
  | None => None
  end.

(** The deterministic enumeration of a [gmap]. *)
Definition canonical_order (m : gmap N nat) : list (N * nat) := map_to_list m.

(** Small evaluations of the model. *)
Example f32_lit_032 : f32_lit 32 100 = S754_finite false 10737418 (-25).
Proof. vm_compute. reflexivity. Qed.

Example f32_le_literals :
  f32_le (f32_lit 3 10) (f32_lit 32 100) = true /\
  f32_le (f32_lit 5 10) (f32_lit 32 100) = false.
Proof. vm_compute. split; reflexivity. Qed.

Example winners_small :
  winners canonical_order (TopNVoting' 5 (f32_lit 32 100) 1)
    [ObservationMetricResult' 1 None (Some (f32_lit 2 10));
     ObservationMetricResult' 2 None (Some (f32_lit 2 10));
     ObservationMetricResult' 2 None (Some (f32_lit 3 10))]
  = Some [TopNVotingElt' 2 2; TopNVotingElt' 1 1].
Proof. vm_compute. reflexivity. Qed.

(** ** Vocabulary of the claims *)

(** The candidates kept by the filter step. *)
Definition retained (cfg : TopNVoting) (ds : list ObservationMetricResult)
    : list ObservationMetricResult :=
  List.filter (feat_filter cfg) ds.

(** The number of retained candidates that carry identity [k]. *)
Definition vote_count (cfg : TopNVoting) (ds : list ObservationMetricResult) (k : N) : nat :=
  length (List.filter (fun r => N.eqb (omr_track r) k) (retained cfg ds)).

(** Descending order on vote counts. *)
Definition votes_ge (a b : TopNVotingElt) : Prop := votes b <= votes a.

(** ** The fallible stable sort *)

Lemma insert_by_perm {A} (cmp : A -> A -> option comparison) x l l' :
  insert_by cmp x l = Some l' -> l' ≡ₚ x :: l.
Proof.
  revert l'; induction l as [|y l IH]; intros l' H; simpl in H.
  - by injection H as <-.
  - destruct (cmp x y) as [[]|]; try discriminate.
    + by injection H as <-.
    + by injection H as <-.
    + destruct (insert_by cmp x l) as [l''|] eqn:E; [|discriminate].
      injection H as <-. rewrite (IH l'' eq_refl). by constructor.
Qed.

Lemma sort_by_perm {A} (cmp : A -> A -> option comparison) l s :
  sort_by cmp l = Some s -> s ≡ₚ l.
Proof.
  revert s; induction l as [|x l IH]; intros s H; simpl in H.
  - by injection H as <-.
  - destruct (sort_by cmp l) as [s'|] eqn:E; [|discriminate].
    rewrite (insert_by_perm _ _ _ _ H). by rewrite (IH s' eq_refl).
Qed.

Lemma votes_cmp_total (l r : TopNVotingElt) :
  votes_cmp l r = Some (Nat.compare (votes r) (votes l)).
Proof. reflexivity. Qed.

Arguments votes_cmp : simpl never.

Lemma insert_by_votes_some x l : exists l', insert_by votes_cmp x l = Some l'.
Proof.
  induction l as [|y l [l' IH]]; simpl; [eauto|].
  destruct (Nat.compare _ _); [eauto|eauto|].
  rewrite IH. eauto.
Qed.

Lemma sort_by_votes_some l : exists s, sort_by votes_cmp l = Some s.
Proof.
  induction l as [|x l [s IH]]; simpl; [eauto|].
  rewrite IH. apply insert_by_votes_some.
Qed.

Lemma insert_by_votes_hd z x l l' :
  insert_by votes_cmp x l = Some l' ->
  HdRel votes_ge z l -> votes_ge z x -> HdRel votes_ge z l'.
Proof.
  destruct l as [|y l]; simpl; intros H Hz Hx.
  - injection H as <-. by constructor.
  - try rewrite votes_cmp_total in H.
    destruct (Nat.compare _ _); try (injection H as <-; by constructor).
    destruct (insert_by votes_cmp x l); [|discriminate].
    injection H as <-. inversion Hz; by constructor.
Qed.

Lemma insert_by_votes_sorted x l l' :
  Sorted votes_ge l -> insert_by votes_cmp x l = Some l' -> Sorted votes_ge l'.
Proof.
  revert l'; induction l as [|y l IH]; intros l' Hs H; simpl in H.
  - injection H as <-. repeat constructor.
  - try rewrite votes_cmp_total in H.
    destruct (Nat.compare (votes y) (votes x)) eqn:C.
    + injection H as <-. constructor; [done|].
      constructor. unfold votes_ge. apply Nat.compare_eq in C. lia.
    + injection H as <-. constructor; [done|].
      constructor. unfold votes_ge. apply Nat.compare_lt_iff in C. lia.
    + destruct (insert_by votes_cmp x l) as [l''|] eqn:E; [|discriminate].
      injection H as <-. inversion Hs as [|? ? Hl Hhd]; subst.
      constructor; [by apply IH|].
      eapply insert_by_votes_hd; [exact E|exact Hhd|].
      unfold votes_ge. apply Nat.compare_gt_iff in C. lia.
Qed.

Lemma sort_by_votes_sorted l s :
  sort_by votes_cmp l = Some s -> Sorted votes_ge s.
Proof.
  revert s; induction l as [|x l IH]; intros s H; simpl in H.
  - injection H as <-. constructor.
  - destruct (sort_by votes_cmp l) as [s'|] eqn:E; [|discriminate].
    eapply insert_by_votes_sorted; [apply IH; reflexivity|exact H].
Qed.

(** ** [Itertools::counts] *)

Lemma counts_fold_default l m k :
  default 0 (fold_left counts_step l m !! k) = default 0 (m !! k) + count_occ N.eq_dec l k.
Proof.
  revert m; induction l as [|t l IH]; intros m; simpl; [lia|].
  rewrite IH. unfold counts_step.
  destruct (N.eq_dec t k) as [->|Hne].
  - rewrite lookup_insert_eq. simpl. lia.
  - rewrite lookup_insert_ne by done. lia.
Qed.

Lemma counts_fold_nonzero l m k :
  (forall k', m !! k' <> Some 0) -> fold_left counts_step l m !! k <> Some 0.
Proof.
  revert m; induction l as [|t l IH]; intros m Hm; simpl; [done|].
  apply IH. intros k'. unfold counts_step.
  destruct (decide (t = k')) as [->|Hne].
  - rewrite lookup_insert_eq. intros [=]. lia.
  - rewrite lookup_insert_ne by done. apply Hm.
Qed.

Lemma counts_lookup l k c :
  counts l !! k = Some c <-> c = count_occ N.eq_dec l k /\ c <> 0.
Proof.
  pose proof (counts_fold_default l ∅ k) as Hd.
  pose proof (counts_fold_nonzero l ∅ k (fun k' => lookup_empty_Some k' 0)) as Hn.
  unfold counts. rewrite lookup_empty in Hd. simpl in Hd.
  split.
  - intros Hc. rewrite Hc in Hd, Hn. simpl in Hd. split; [done|]. congruence.
  - intros [-> Hc]. destruct (fold_left counts_step l ∅ !! k) as [c'|]; simpl in Hd.
    + by rewrite Hd.
    + lia.
Qed.

Lemma sort_unstable_perm l : sort_unstable l ≡ₚ l.
Proof. apply merge_sort_Permutation. Qed.

Lemma count_occ_filtered_tracks cfg ds k :
  count_occ N.eq_dec (filtered_tracks cfg ds) k = vote_count cfg ds k.
Proof.
  unfold filtered_tracks, vote_count, retained.
  induction (List.filter (feat_filter cfg) ds) as [|r l IH]; simpl; [done|].
  destruct (N.eq_dec (omr_track r) k) as [E|Hne].
  - rewrite E, N.eqb_refl. simpl. lia.
  - apply N.eqb_neq in Hne. by rewrite Hne.
Qed.

Lemma counts_tracks_lookup cfg ds k c :
  counts (sort_unstable (filtered_tracks cfg ds)) !! k = Some c <->
  c = vote_count cfg ds k /\ c <> 0.
Proof.
  rewrite counts_lookup, <- count_occ_filtered_tracks.
  by rewrite (proj1 (Permutation_count_occ N.eq_dec _ _) (sort_unstable_perm _)).
Qed.

(** ** The threshold step *)

Lemma threshold_In cfg it e :
  In e (threshold cfg it) <-> In (track_id e, votes e) it /\ min_votes cfg <= votes e.
Proof.
  unfold threshold. rewrite in_map_iff. split.
  - intros [[k c] [<- Hin]]. apply filter_In in Hin as [Hin Hc]. simpl.
    split; [done|]. by apply Nat.leb_le.
  - intros [Hin Hc]. exists (track_id e, votes e). split; [by destruct e|].
    apply filter_In. split; [done|]. by apply Nat.leb_le.
Qed.

Lemma filter_perm {A} (p : A -> bool) l l' :
  l ≡ₚ l' -> List.filter p l ≡ₚ List.filter p l'.
Proof.
  induction 1 as [|x l l' _ IH|x y l|l l' l'' _ IH1 _ IH2]; simpl.
  - done.
  - destruct (p x); [by constructor|done].
  - destruct (p x), (p y); try constructor; done.
  - by rewrite IH1.
Qed.

Lemma threshold_perm cfg it it' : it ≡ₚ it' -> threshold cfg it ≡ₚ threshold cfg it'.
Proof.
  intros H. unfold threshold. apply Permutation_map. by apply filter_perm.
Qed.

Lemma threshold_track_ids cfg it :
  map track_id (threshold cfg it) = map fst (List.filter (fun '(_, c) => min_votes cfg <=? c) it).
Proof.
  unfold threshold. rewrite map_map. apply map_ext. by intros [].
Qed.

Lemma fmap_fst_map (l : list (N * nat)) : l.*1 = map fst l.
Proof. induction l as [|x l IH]; [done|]. rewrite fmap_cons, IH. done. Qed.

Lemma NoDup_map_fst_filter (p : N * nat -> bool) (l : list (N * nat)) :
  NoDup (map fst l) -> NoDup (map fst (List.filter p l)).
Proof.
  induction l as [|x l IH]; simpl; [done|]. intros Hnd. inversion Hnd as [|? ? Hx Hl]; subst.
  destruct (p x); simpl; [|by apply IH]. constructor; [|by apply IH].
  intros Hin. apply Hx. rewrite list_elem_of_In in Hin |- *.
  apply in_map_iff in Hin as [y [Hy Hin]].
  apply filter_In in Hin as [Hin _]. apply in_map_iff. eauto.
Qed.

Lemma survivors_In order cfg ds e :
  hash_order_ok order ->
  In e (survivors order cfg ds) <->
  votes e = vote_count cfg ds (track_id e) /\ votes e <> 0 /\ min_votes cfg <= votes e.
Proof.
  intros Ho. unfold survivors. rewrite threshold_In.
  rewrite <- list_elem_of_In, (Ho _), elem_of_map_to_list, counts_tracks_lookup. tauto.
Qed.

Lemma survivors_NoDup order cfg ds :
  hash_order_ok order -> NoDup (map track_id (survivors order cfg ds)).
Proof.
  intros Ho. unfold survivors. rewrite threshold_track_ids.
  apply NoDup_map_fst_filter.
  rewrite (Permutation_map fst (Ho _)), <- fmap_fst_map. apply NoDup_fst_map_to_list.
Qed.

(** ** List facts used by the ranking and truncation steps *)

Lemma Sorted_firstn {A} (R : A -> A -> Prop) n l :
  Sorted R l -> Sorted R (firstn n l).
Proof.
  revert l; induction n as [|n IH]; intros l Hs; simpl; [constructor|].
  destruct l as [|x l]; [constructor|]. inversion Hs as [|? ? Hl Hhd]; subst.
  constructor; [by apply IH|].
  destruct n; simpl; [constructor|]. destruct l; simpl; [constructor|].
  inversion Hhd; subst. by constructor.
Qed.

Lemma Sorted_adjacent {A} (R : A -> A -> Prop) l i a b :
  Sorted R l -> nth_error l i = Some a -> nth_error l (S i) = Some b -> R a b.
Proof.
  revert l; induction i as [|i IH]; intros l Hs Ha Hb.
  - destruct l as [|x [|y l]]; simpl in *; try discriminate.
    injection Ha as <-. injection Hb as <-. inversion Hs as [|? ? _ Hhd]; subst.
    by inversion Hhd.
  - destruct l as [|x l]; simpl in *; [discriminate|].
    inversion Hs; subst. eapply IH; eauto.
Qed.

Lemma NoDup_firstn {A} n (l : list A) : NoDup l -> NoDup (firstn n l).
Proof.
  intros H. rewrite <- (firstn_skipn n l) in H. by apply NoDup_app in H as [? _].
Qed.

Lemma In_firstn {A} n (l : list A) x : In x (firstn n l) -> In x l.
Proof.
  intros H. rewrite <- (firstn_skipn n l). apply in_or_app. by left.
Qed.

Lemma winners_Some order cfg ds out :
  winners order cfg ds = Some out ->
  exists s, sort_by votes_cmp (survivors order cfg ds) = Some s /\
            s ≡ₚ survivors order cfg ds /\ Sorted votes_ge s /\
            out = firstn (topn cfg) s.
Proof.
  unfold winners. destruct (sort_by votes_cmp (survivors order cfg ds)) as [s|] eqn:E;
    [|discriminate].
  intros [= <-]. exists s. split; [done|]. split; [by eapply sort_by_perm|].
  split; [by eapply sort_by_votes_sorted|done].
Qed.

Lemma winners_In order cfg ds out e :
  winners order cfg ds = Some out -> In e out -> In e (survivors order cfg ds).
Proof.
  intros H Hin. destruct (winners_Some _ _ _ _ H) as (s & _ & Hp & _ & ->).
  eapply Permutation_in; [exact Hp|]. by eapply In_firstn.
Qed.

Lemma vote_count_retained cfg ds k :
  vote_count cfg ds k <> 0 -> exists r, In r (retained cfg ds) /\ omr_track r = k.
Proof.
  unfold vote_count. destruct (List.filter _ _) as [|r l] eqn:E; simpl; [lia|].
  intros _. assert (Hr : In r (List.filter (fun r => N.eqb (omr_track r) k) (retained cfg ds)))
    by (rewrite E; by left).
  apply filter_In in Hr as [Hr Hk]. exists r. split; [done|]. by apply N.eqb_eq.
Qed.

Lemma retained_vote_count cfg ds r :
  In r (retained cfg ds) -> vote_count cfg ds (omr_track r) <> 0.
Proof.
  intros H. unfold vote_count.
  assert (Hr : In r (List.filter (fun r' => N.eqb (omr_track r') (omr_track r)) (retained cfg ds)))
    by (apply filter_In; split; [done|apply N.eqb_refl]).
  destruct (List.filter _ _); simpl; [contradiction|lia].
Qed.

Lemma winners_retained order cfg ds ds' :
  retained cfg ds = retained cfg ds' -> winners order cfg ds = winners order cfg ds'.
Proof.
  unfold retained. intros H. unfold winners, survivors, filtered_tracks. by rewrite H.
Qed.

Lemma canonical_order_ok : hash_order_ok canonical_order.
Proof. intros m. reflexivity. Qed.

(** ** Concrete inputs, the configuration of the test [default_voting] *)

Definition cfg_default : TopNVoting := TopNVoting' 5 (f32_lit 32 100) 1.

Definition cand (t : N) (num den : Z) : ObservationMetricResult :=
  ObservationMetricResult' t (Some (f32_of_Z 0)) (Some (f32_lit num den)).

(** Scenario B of the test: two candidates of track 1. *)
Definition ds_two : list ObservationMetricResult := [cand 1 2 10; cand 1 3 10].

(** ** Claims *)

(** C1: a candidate of the input is kept by the filter step exactly when
    its [primary_distance] (the [feat_dist] field) is present and [<=]
    [max_distance]; an absent distance is always dropped, and a distance
    that is [==] to [max_distance] is always kept. *)
Theorem filter_step_spec cfg ds r :
  In r ds ->
  (In r (retained cfg ds) <->
     exists e, omr_feat_dist r = Some e /\ f32_le e (max_distance cfg) = true) /\
  (omr_feat_dist r = None -> ~ In r (retained cfg ds)) /\
  (forall e, omr_feat_dist r = Some e -> f32_eq e (max_distance cfg) = true ->
     In r (retained cfg ds)).
Proof.
  intros Hin. unfold retained.
  assert (Hiff : In r (List.filter (feat_filter cfg) ds) <->
                 exists e, omr_feat_dist r = Some e /\ f32_le e (max_distance cfg) = true).
  { rewrite filter_In. unfold feat_filter. split.
    - intros [_ Hf]. destruct (omr_feat_dist r) as [e|]; [eauto|discriminate].
    - intros (e & He & Hle). rewrite He. done. }
  split; [done|]. split.
  - intros Hn Hr. apply Hiff in Hr as (e & He & _). congruence.
  - intros e He Heq. apply Hiff. exists e. split; [done|].
    revert Heq. unfold f32_eq, f32_le, SFeqb, SFleb.
    destruct (SFcompare e (max_distance cfg)) as [[]|]; congruence.
Qed.

Lemma filter_step_spec_witness :
  In (cand 1 2 10) ds_two /\
  ((In (cand 1 2 10) (retained cfg_default ds_two) <->
     exists e, omr_feat_dist (cand 1 2 10) = Some e /\ f32_le e (max_distance cfg_default) = true) /\
  (omr_feat_dist (cand 1 2 10) = None -> ~ In (cand 1 2 10) (retained cfg_default ds_two)) /\
  (forall e, omr_feat_dist (cand 1 2 10) = Some e -> f32_eq e (max_distance cfg_default) = true ->
     In (cand 1 2 10) (retained cfg_default ds_two))).
Proof.
  assert (H : In (cand 1 2 10) ds_two) by (simpl; left; reflexivity).
  split; [exact H|]. apply (filter_step_spec cfg_default ds_two (cand 1 2 10) H).
Defined.

(** C2: every element of the output carries as [votes] the number of
    retained candidates with its identity, and an identity that no
    retained candidate carries is not in the output. *)
Theorem winners_vote_count order cfg ds out :
  hash_order_ok order -> winners order cfg ds = Some out ->
  (forall e, In e out -> votes e = vote_count cfg ds (track_id e)) /\
  (forall k, ~ (exists r, In r (retained cfg ds) /\ omr_track r = k) ->
     forall e, In e out -> track_id e <> k).
Proof.
  intros Ho Hw. split.
  - intros e He. apply (winners_In _ _ _ _ _ Hw) in He.
    by apply (survivors_In _ _ _ _ Ho) in He as [? _].
  - intros k Hk e He <-. apply (winners_In _ _ _ _ _ Hw) in He.
    apply (survivors_In _ _ _ _ Ho) in He as (Hv & Hnz & _).
    apply Hk, vote_count_retained. congruence.
Qed.

Lemma winners_vote_count_witness :
  hash_order_ok canonical_order /\
  winners canonical_order cfg_default ds_two = Some [TopNVotingElt' 1 2] /\
  (forall e, In e [TopNVotingElt' 1 2] -> votes e = vote_count cfg_default ds_two (track_id e)) /\
  (forall k, ~ (exists r, In r (retained cfg_default ds_two) /\ omr_track r = k) ->
     forall e, In e [TopNVotingElt' 1 2] -> track_id e <> k).
Proof.
  assert (Hw : winners canonical_order cfg_default ds_two = Some [TopNVotingElt' 1 2])
    by (vm_compute; reflexivity).
  split; [exact canonical_order_ok|]. split; [exact Hw|].
  exact (winners_vote_count canonical_order cfg_default ds_two _ canonical_order_ok Hw).
Defined.

(** C3: an identity with fewer than [min_votes] retained candidates is not
    in the output; an aggregated identity (one carried by a retained
    candidate) whose count is exactly [min_votes] survives the threshold
    step, and when truncation removes nothing it is in the output. *)
Theorem winners_min_votes order cfg ds out :
  hash_order_ok order -> winners order cfg ds = Some out ->
  (forall k, vote_count cfg ds k < min_votes cfg ->
     forall e, In e out -> track_id e <> k) /\
  (forall k, (exists r, In r (retained cfg ds) /\ omr_track r = k) ->
     vote_count cfg ds k = min_votes cfg ->
     In (TopNVotingElt' k (min_votes cfg)) (survivors order cfg ds) /\
     (length (survivors order cfg ds) <= topn cfg ->
        In (TopNVotingElt' k (min_votes cfg)) out)).
Proof.
  intros Ho Hw. split.
  - intros k Hk e He <-. apply (winners_In _ _ _ _ _ Hw) in He.
    apply (survivors_In _ _ _ _ Ho) in He as (Hv & _ & Hm). lia.
  - intros k (r & Hr & <-) Hc.
    assert (Hs : In (TopNVotingElt' (omr_track r) (min_votes cfg)) (survivors order cfg ds)).
    { apply (survivors_In _ _ _ _ Ho). simpl. split; [done|]. split; [|done].
      rewrite <- Hc. by apply retained_vote_count. }
    split; [done|]. intros Hlen.
    destruct (winners_Some _ _ _ _ Hw) as (s & _ & Hp & _ & ->).
    rewrite firstn_all2.
    + by apply (Permutation_in _ (Permutation_sym Hp)).
    + by rewrite (Permutation_length Hp).
Qed.

Lemma winners_min_votes_witness :
  hash_order_ok canonical_order /\
  winners canonical_order cfg_default ds_two = Some [TopNVotingElt' 1 2] /\
  ((forall k, vote_count cfg_default ds_two k < min_votes cfg_default ->
     forall e, In e [TopNVotingElt' 1 2] -> track_id e <> k) /\
   (forall k, (exists r, In r (retained cfg_default ds_two) /\ omr_track r = k) ->
     vote_count cfg_default ds_two k = min_votes cfg_default ->
     In (TopNVotingElt' k (min_votes cfg_default)) (survivors canonical_order cfg_default ds_two) /\
     (length (survivors canonical_order cfg_default ds_two) <= topn cfg_default ->
        In (TopNVotingElt' k (min_votes cfg_default)) [TopNVotingElt' 1 2]))).
Proof.
  assert (Hw : winners canonical_order cfg_default ds_two = Some [TopNVotingElt' 1 2])
    by (vm_compute; reflexivity).
  split; [exact canonical_order_ok|]. split; [exact Hw|].
  exact (winners_min_votes canonical_order cfg_default ds_two _ canonical_order_ok Hw).
Defined.

(** C4: the output has no identity twice and is ranked by [votes],
    descending: of two adjacent elements the earlier has at least as many
    votes as the later. *)
Theorem winners_distinct_sorted order cfg ds out :
  hash_order_ok order -> winners order cfg ds = Some out ->
  NoDup (map track_id out) /\
  (forall i a b, nth_error out i = Some a -> nth_error out (S i) = Some b ->
     votes b <= votes a).
Proof.
  intros Ho Hw. destruct (winners_Some _ _ _ _ Hw) as (s & _ & Hp & Hs & ->). split.
  - rewrite <- firstn_map. apply NoDup_firstn.
    rewrite (Permutation_map track_id Hp). by apply survivors_NoDup.
  - intros i a b Ha Hb. apply (Sorted_adjacent votes_ge (firstn (topn cfg) s) i a b);
      [by apply Sorted_firstn|done|done].
Qed.

Lemma winners_distinct_sorted_witness :
  hash_order_ok canonical_order /\
  winners canonical_order cfg_default ds_two = Some [TopNVotingElt' 1 2] /\
  (NoDup (map track_id [TopNVotingElt' 1 2]) /\
   (forall i a b, nth_error [TopNVotingElt' 1 2] i = Some a ->
      nth_error [TopNVotingElt' 1 2] (S i) = Some b -> votes b <= votes a)).
Proof.
  assert (Hw : winners canonical_order cfg_default ds_two = Some [TopNVotingElt' 1 2])
    by (vm_compute; reflexivity).
  split; [exact canonical_order_ok|]. split; [exact Hw|].
  exact (winners_distinct_sorted canonical_order cfg_default ds_two _ canonical_order_ok Hw).
Defined.

(** C5: the output has at most [min topn (number of survivors)] elements;
    when no more than [topn] identities survive the threshold step, the
    output holds all of them (it is a reordering of the survivors). *)
Theorem winners_length order cfg ds out :
  winners order cfg ds = Some out ->
  length out <= Nat.min (topn cfg) (length (survivors order cfg ds)) /\
  (length (survivors order cfg ds) <= topn cfg -> out ≡ₚ survivors order cfg ds).
Proof.
  intros Hw. destruct (winners_Some _ _ _ _ Hw) as (s & _ & Hp & _ & ->). split.
  - rewrite length_firstn, (Permutation_length Hp). lia.
  - intros Hlen. rewrite firstn_all2; [done|]. by rewrite (Permutation_length Hp).
Qed.

Lemma winners_length_witness :
  winners canonical_order cfg_default ds_two = Some [TopNVotingElt' 1 2] /\
  (length [TopNVotingElt' 1 2] <=
     Nat.min (topn cfg_default) (length (survivors canonical_order cfg_default ds_two)) /\
   (length (survivors canonical_order cfg_default ds_two) <= topn cfg_default ->
      [TopNVotingElt' 1 2] ≡ₚ survivors canonical_order cfg_default ds_two)).
Proof.
  assert (Hw : winners canonical_order cfg_default ds_two = Some [TopNVotingElt' 1 2])
    by (vm_compute; reflexivity).
  split; [exact Hw|].
  exact (winners_length canonical_order cfg_default ds_two _ Hw).
Defined.

(** C6: [winners] never fails, whatever the configuration, the input and
    the hash-map order; when no candidate passes the filter (in particular
    for the empty input) the result is empty. *)
Theorem winners_total order cfg ds :
  (exists out, winners order cfg ds = Some out) /\
  (hash_order_ok order -> retained cfg ds = [] -> winners order cfg ds = Some []) /\
  (hash_order_ok order -> winners order cfg [] = Some []).
Proof.
  assert (Hnil : hash_order_ok order -> forall ds', retained cfg ds' = [] ->
                 winners order cfg ds' = Some []).
  { intros Ho ds' Hr. unfold winners, survivors, filtered_tracks.
    unfold retained in Hr. rewrite Hr. simpl.
    assert (He : order (counts (sort_unstable [])) = []).
    { apply Permutation_nil_r. rewrite (Ho _). reflexivity. }
    rewrite He. unfold threshold. simpl. unfold truncate. by rewrite firstn_nil. }
  split; [|split].
  - unfold winners. destruct (sort_by_votes_some (survivors order cfg ds)) as [s ->]. eauto.
  - intros Ho. by apply Hnil.
  - intros Ho. by apply Hnil.
Qed.

Lemma winners_total_witness :
  (exists out, winners canonical_order cfg_default ds_two = Some out) /\
  (hash_order_ok canonical_order -> retained cfg_default ds_two = [] ->
     winners canonical_order cfg_default ds_two = Some []) /\
  (hash_order_ok canonical_order -> winners canonical_order cfg_default [] = Some []).
Proof.
  exact (winners_total canonical_order cfg_default ds_two).
Defined.

(** C9: a candidate whose [primary_distance] is present but NaN fails the
    comparison with [max_distance], whatever the configuration: it is
    dropped by the filter, adds no vote to any identity, and removing it
    from the input does not change the result. *)
Theorem nan_distance_excluded order cfg ds1 ds2 r :
  omr_feat_dist r = Some f32_nan ->
  feat_filter cfg r = false /\
  ~ In r (retained cfg (ds1 ++ r :: ds2)) /\
  (forall k, vote_count cfg (ds1 ++ r :: ds2) k = vote_count cfg (ds1 ++ ds2) k) /\
  winners order cfg (ds1 ++ r :: ds2) = winners order cfg (ds1 ++ ds2).
Proof.
  intros Hn.
  assert (Hf : feat_filter cfg r = false) by (unfold feat_filter; by rewrite Hn).
  assert (Hr : retained cfg (ds1 ++ r :: ds2) = retained cfg (ds1 ++ ds2)).
  { unfold retained. rewrite !List.filter_app. simpl. by rewrite Hf. }
  split; [done|]. split; [|split].
  - unfold retained. rewrite filter_In. intros [_ Ht]. congruence.
  - intros k. unfold vote_count. by rewrite Hr.
  - by apply winners_retained.
Qed.

Lemma nan_distance_excluded_witness :
  omr_feat_dist (ObservationMetricResult' 3 None (Some f32_nan)) = Some f32_nan /\
  (feat_filter cfg_default (ObservationMetricResult' 3 None (Some f32_nan)) = false /\
   ~ In (ObservationMetricResult' 3 None (Some f32_nan))
        (retained cfg_default (ds_two ++ ObservationMetricResult' 3 None (Some f32_nan) :: [])) /\
   (forall k, vote_count cfg_default
                (ds_two ++ ObservationMetricResult' 3 None (Some f32_nan) :: []) k =
              vote_count cfg_default (ds_two ++ []) k) /\
   winners canonical_order cfg_default
     (ds_two ++ ObservationMetricResult' 3 None (Some f32_nan) :: []) =
   winners canonical_order cfg_default (ds_two ++ [])).
Proof.
  split; [reflexivity|].
  exact (nan_distance_excluded canonical_order cfg_default ds_two []
           (ObservationMetricResult' 3 None (Some f32_nan)) eq_refl).
Defined.

(** C10: [usize::partial_cmp] always answers, so the [unwrap] in the
    ranking comparator never panics and [winners] never panics. *)
Theorem ranking_unwrap_safe :
  (forall a b, partial_cmp_usize a b <> None) /\
  (forall l r, votes_cmp l r <> None) /\
  (forall order cfg ds, winners order cfg ds <> None).
Proof.
  split; [|split].
  - intros a b. unfold partial_cmp_usize. discriminate.
  - intros l r. rewrite votes_cmp_total. discriminate.
  - intros order cfg ds. unfold winners.
    destruct (sort_by_votes_some (survivors order cfg ds)) as [s ->]. discriminate.
Qed.

(** ** Independence from the input order and from the hash-map order *)

Lemma counts_perm l1 l2 : l1 ≡ₚ l2 -> counts l1 = counts l2.
Proof.
  intros Hp. pose proof (proj1 (Permutation_count_occ N.eq_dec _ _) Hp) as Hc.
  apply map_eq. intros k.
  destruct (counts l1 !! k) as [c|] eqn:E1.
  - apply counts_lookup in E1 as [-> Hnz]. symmetry. apply counts_lookup. split; [apply Hc|done].
  - destruct (counts l2 !! k) as [c|] eqn:E2; [|done].
    apply counts_lookup in E2 as [-> Hnz].
    assert (counts l1 !! k = Some (count_occ N.eq_dec l1 k)) as E3
      by (apply counts_lookup; by rewrite Hc). congruence.
Qed.

Lemma survivors_perm order1 order2 cfg ds1 ds2 :
  hash_order_ok order1 -> hash_order_ok order2 -> ds1 ≡ₚ ds2 ->
  survivors order1 cfg ds1 ≡ₚ survivors order2 cfg ds2.
Proof.
  intros Ho1 Ho2 Hp. unfold survivors. apply threshold_perm.
  rewrite (Ho1 _), (Ho2 _). f_equiv. apply counts_perm.
  rewrite !sort_unstable_perm. unfold filtered_tracks.
  apply Permutation_map. by apply filter_perm.
Qed.

Lemma Sorted_votes_map s : Sorted votes_ge s -> Sorted (fun a b : nat => b <= a) (map votes s).
Proof.
  induction 1 as [|x s _ IH Hhd]; simpl; constructor; [done|].
  destruct Hhd; simpl; constructor. done.
Qed.

Local Instance ge_nat_trans : Transitive (fun a b : nat => b <= a).
Proof. intros a b c; lia. Qed.

Local Instance ge_nat_antisymm : AntiSymm (=) (fun a b : nat => b <= a).
Proof. intros a b; lia. Qed.

Lemma sorted_votes_unique s1 s2 :
  Sorted votes_ge s1 -> Sorted votes_ge s2 -> s1 ≡ₚ s2 -> map votes s1 = map votes s2.
Proof.
  intros H1 H2 Hp. apply (Sorted_unique (fun a b : nat => b <= a));
    [by apply Sorted_votes_map..|]. by apply Permutation_map.
Qed.

Local Instance votes_ge_trans : Transitive votes_ge.
Proof. unfold votes_ge. intros a b c; lia. Qed.

Lemma sorted_nth_le s i j a b :
  Sorted votes_ge s -> i <= j -> nth_error s i = Some a -> nth_error s j = Some b ->
  votes b <= votes a.
Proof.
  intros Hs. apply Sorted_StronglySorted in Hs; [|apply votes_ge_trans].
  revert i j; induction Hs as [|x s _ IH Hall]; intros i j Hij Ha Hb;
    destruct i as [|i], j as [|j]; simpl in *; try discriminate; try lia.
  - injection Ha as <-. injection Hb as <-. lia.
  - injection Ha as <-. apply nth_error_In in Hb.
    rewrite List.Forall_forall in Hall. exact (Hall b Hb).
  - apply (IH i j); [lia|done|done].
Qed.

Lemma nth_error_firstn_Some {A} n (l : list A) i x :
  nth_error (firstn n l) i = Some x <-> i < n /\ nth_error l i = Some x.
Proof.
  rewrite nth_error_firstn. destruct (Nat.ltb_spec i n) as [Hlt|Hge].
  - split; [done|]. by intros [_ Hx].
  - split; [discriminate|]. intros [Hlt _]. lia.
Qed.

(** Another legal iteration order of the same hash map. *)
Definition rev_order (m : gmap N nat) : list (N * nat) := rev (map_to_list m).

Lemma rev_order_ok : hash_order_ok rev_order.
Proof. intros m. unfold rev_order. symmetry. apply Permutation_rev. Qed.

(** Two tracks with one vote each, and room for one winner. *)
Definition cfg_top1 : TopNVoting := TopNVoting' 1 (f32_lit 32 100) 1.
Definition ds_tie : list ObservationMetricResult := [cand 1 2 10; cand 2 2 10].

(** C7 (as stated): two calls on the same input, or on permuted inputs,
    return the same set of pairs. It fails: with [topn = 1] and two tracks
    tied at one vote, the winner depends on the hash map's iteration
    order, and so differs between two calls on the same input. *)
Lemma winners_tie_counterexample :
  ~ (forall order1 order2 cfg ds1 ds2 o1 o2,
       hash_order_ok order1 -> hash_order_ok order2 -> ds1 ≡ₚ ds2 ->
       winners order1 cfg ds1 = Some o1 -> winners order2 cfg ds2 = Some o2 ->
       forall p, In p o1 <-> In p o2).
Proof.
  intros H.
  assert (H1 : winners canonical_order cfg_top1 ds_tie = Some [TopNVotingElt' 2 1])
    by (vm_compute; reflexivity).
  assert (H2 : winners rev_order cfg_top1 ds_tie = Some [TopNVotingElt' 1 1])
    by (vm_compute; reflexivity).
  pose proof (H _ _ _ _ _ _ _ canonical_order_ok rev_order_ok (reflexivity _) H1 H2
                (TopNVotingElt' 2 1)) as [Hp _].
  assert (Hin : In (TopNVotingElt' 2 1) [TopNVotingElt' 1 1]) by (apply Hp; by left).
  destruct Hin as [E|[]]. discriminate E.
Qed.

(** C7 (amended): for every configuration, on the same input or on a
    permutation of it, and whatever the two hash-map orders, the two
    outputs have the same sequence of vote counts; an element whose vote
    count is above the smallest one in the output is in both outputs; an
    element of one output is in the other whenever every surviving
    identity with the same vote count is in the first output (truncation
    did not split its group of ties); and when truncation removes nothing
    the outputs hold the same pairs, so they differ only in the order of
    equal vote counts. Which identities of a group tied at the cut-off
    vote count survive truncation is not determined. *)
Theorem winners_order_independent order1 order2 cfg ds1 ds2 o1 o2 :
  hash_order_ok order1 -> hash_order_ok order2 -> ds1 ≡ₚ ds2 ->
  winners order1 cfg ds1 = Some o1 -> winners order2 cfg ds2 = Some o2 ->
  map votes o1 = map votes o2 /\
  (forall p q, In p o1 -> In q o1 -> votes q < votes p -> In p o2) /\
  (forall p, In p o1 ->
     (forall e, In e (survivors order1 cfg ds1) -> votes e = votes p -> In e o1) ->
     In p o2) /\
  (length (survivors order1 cfg ds1) <= topn cfg -> o1 ≡ₚ o2).
Proof.
  intros Ho1 Ho2 Hds Hw1 Hw2.
  destruct (winners_Some _ _ _ _ Hw1) as (s1 & _ & Hp1 & Hs1 & ->).
  destruct (winners_Some _ _ _ _ Hw2) as (s2 & _ & Hp2 & Hs2 & ->).
  pose proof (survivors_perm order1 order2 cfg ds1 ds2 Ho1 Ho2 Hds) as Hsp.
  assert (Hss : s1 ≡ₚ s2) by (rewrite Hp1, Hsp; by symmetry).
  pose proof (sorted_votes_unique s1 s2 Hs1 Hs2 Hss) as HV.
  split; [|split; [|split]].
  - by rewrite <- !firstn_map, HV.
  - intros p q Hp Hq Hlt.
    apply In_nth_error in Hq as [iq Hq]. apply nth_error_firstn_Some in Hq as [Hiq Hq].
    assert (Hps : In p s2)
      by (eapply Permutation_in; [exact Hss|]; by eapply In_firstn).
    apply In_nth_error in Hps as [j Hj].
    pose proof (map_nth_error votes iq s1 Hq) as Hv. rewrite HV, nth_error_map in Hv.
    destruct (nth_error s2 iq) as [q'|] eqn:Hq'; simpl in Hv; [|discriminate].
    injection Hv as Hv.
    destruct (Nat.lt_ge_cases j iq) as [Hj'|Hj'].
    + apply (nth_error_In _ j). apply nth_error_firstn_Some. split; [lia|done].
    + pose proof (sorted_nth_le s2 iq j q' p Hs2 Hj' Hq' Hj). lia.
  - intros p Hp Hall.
    assert (Hps : In p s2)
      by (eapply Permutation_in; [exact Hss|]; by eapply In_firstn).
    apply In_nth_error in Hps as [j Hj].
    apply (nth_error_In _ j). apply nth_error_firstn_Some. split; [|done].
    destruct (Nat.lt_ge_cases j (topn cfg)) as [Hlt|Hge]; [done|exfalso].
    destruct (nth_error s1 j) as [x|] eqn:Hx.
    2:{ apply nth_error_None in Hx. rewrite (Permutation_length Hss) in Hx.
        assert (nth_error s2 j <> None) as Hn by congruence.
        apply nth_error_Some in Hn. lia. }
    assert (Hvx : votes x = votes p).
    { pose proof (map_nth_error votes j s1 Hx) as Hv.
      rewrite HV, nth_error_map, Hj in Hv. simpl in Hv. congruence. }
    assert (Hxo : In x (firstn (topn cfg) s1)).
    { apply Hall; [|done]. eapply Permutation_in; [exact Hp1|].
      eapply nth_error_In; exact Hx. }
    apply In_nth_error in Hxo as [i Hi]. apply nth_error_firstn_Some in Hi as [Hin Hi].
    assert (Hnd : List.NoDup s1).
    { apply (NoDup_map_inv track_id). apply NoDup_ListNoDup.
      rewrite (Permutation_map track_id Hp1). by apply survivors_NoDup. }
    rewrite NoDup_nth_error in Hnd.
    assert (Hij : i = j).
    { apply Hnd; [|congruence]. apply nth_error_Some. congruence. }
    lia.
  - intros Hlen. rewrite !firstn_all2; [done| |].
    + rewrite (Permutation_length Hp2), <- (Permutation_length Hsp). done.
    + by rewrite (Permutation_length Hp1).
Qed.

Lemma winners_order_independent_witness :
  hash_order_ok canonical_order /\ hash_order_ok rev_order /\ ds_tie ≡ₚ ds_tie /\
  winners canonical_order cfg_top1 ds_tie = Some [TopNVotingElt' 2 1] /\
  winners rev_order cfg_top1 ds_tie = Some [TopNVotingElt' 1 1] /\
  (map votes [TopNVotingElt' 2 1] = map votes [TopNVotingElt' 1 1] /\
   (forall p q, In p [TopNVotingElt' 2 1] -> In q [TopNVotingElt' 2 1] ->
      votes q < votes p -> In p [TopNVotingElt' 1 1]) /\
   (forall p, In p [TopNVotingElt' 2 1] ->
      (forall e, In e (survivors canonical_order cfg_top1 ds_tie) -> votes e = votes p ->
         In e [TopNVotingElt' 2 1]) ->
      In p [TopNVotingElt' 1 1]) /\
   (length (survivors canonical_order cfg_top1 ds_tie) <= topn cfg_top1 ->
      [TopNVotingElt' 2 1] ≡ₚ [TopNVotingElt' 1 1])).
Proof.
  assert (H1 : winners canonical_order cfg_top1 ds_tie = Some [TopNVotingElt' 2 1])
    by (vm_compute; reflexivity).
  assert (H2 : winners rev_order cfg_top1 ds_tie = Some [TopNVotingElt' 1 1])
    by (vm_compute; reflexivity).
  split; [exact canonical_order_ok|]. split; [exact rev_order_ok|].
  split; [reflexivity|]. split; [exact H1|]. split; [exact H2|].
  exact (winners_order_independent canonical_order rev_order cfg_top1 ds_tie ds_tie _ _
           canonical_order_ok rev_order_ok (reflexivity _) H1 H2).
Defined.

(** Scenario E of the test [default_voting]. *)
Definition ds_default : list ObservationMetricResult :=
  [cand 1 2 10; cand 1 22 100; cand 2 21 100; cand 2 2 10;
   cand 3 22 100; cand 3 2 10; cand 4 23 100; cand 4 3 10;
   cand 5 24 100; cand 5 3 10; cand 6 25 100; cand 6 5 10].

(** The identities the test expects, each with two votes. *)
Definition scenario_E_winners : list TopNVotingElt :=
  [TopNVotingElt' 1 2; TopNVotingElt' 2 2; TopNVotingElt' 3 2;
   TopNVotingElt' 4 2; TopNVotingElt' 5 2].

Lemma filter_all {A} (p : A -> bool) l : (forall x, In x l -> p x = true) -> List.filter p l = l.
Proof.
  induction l as [|x l IH]; intros H; simpl; [done|].
  rewrite (H x (or_introl eq_refl)). f_equal. apply IH. intros y Hy. apply H. by right.
Qed.

Lemma survivors_perm_tracks order1 order2 cfg ds1 ds2 :
  hash_order_ok order1 -> hash_order_ok order2 ->
  filtered_tracks cfg ds1 ≡ₚ filtered_tracks cfg ds2 ->
  survivors order1 cfg ds1 ≡ₚ survivors order2 cfg ds2.
Proof.
  intros Ho1 Ho2 Hp. unfold survivors. apply threshold_perm.
  rewrite (Ho1 _), (Ho2 _). f_equiv. apply counts_perm.
  by rewrite !sort_unstable_perm.
Qed.

(** The track ids of the test's twelve candidates that pass the filter. *)
Definition scenario_E_tracks : list N := [1; 1; 2; 2; 3; 3; 4; 4; 5; 5; 6]%N.

(** C8: with [topn = 5], [max_distance = 0.32], [min_votes = 1] and any
    twelve candidates [r6 :: rest] (in any order) where identities 1 to 6
    have two entries each, the entry [r6] of identity 6 has distance [0.5]
    and every other entry has a distance [<= 0.32] (so [0.5] is the only
    one over [0.32]), [winners] returns exactly five elements: identities 1
    to 5 with two votes each; identity 6 (one vote left) is not among
    them, whatever the hash-map order and the attribute distances. *)
Theorem default_voting_scenario_E order ds r6 rest out :
  hash_order_ok order ->
  ds ≡ₚ r6 :: rest ->
  omr_track r6 = 6%N -> omr_feat_dist r6 = Some (f32_lit 5 10) ->
  map omr_track rest ≡ₚ scenario_E_tracks ->
  (forall r, In r rest ->
     exists e, omr_feat_dist r = Some e /\ f32_le e (f32_lit 32 100) = true) ->
  winners order cfg_default ds = Some out ->
  length out = 5 /\
  (forall p, In p out <-> In p scenario_E_winners) /\
  (forall e, In e out -> track_id e <> 6%N).
Proof.
  intros Ho Hds Ht6 Hf6 Htr Hrest Hw.
  assert (Htracks : filtered_tracks cfg_default ds ≡ₚ filtered_tracks cfg_default ds_default).
  { transitivity scenario_E_tracks; [|vm_compute; reflexivity].
    unfold filtered_tracks. rewrite (Permutation_map omr_track (filter_perm _ _ _ Hds)).
    simpl. unfold feat_filter at 1. rewrite Hf6.
    replace (f32_le (f32_lit 5 10) (max_distance cfg_default)) with false
      by (vm_compute; reflexivity).
    rewrite filter_all; [done|].
    intros r Hr. destruct (Hrest r Hr) as (e & He & Hle). unfold feat_filter. by rewrite He. }
  destruct (winners_Some _ _ _ _ Hw) as (s & _ & Hp & Hs & ->).
  assert (HS0 : sort_by votes_cmp (survivors canonical_order cfg_default ds_default) =
                Some [TopNVotingElt' 4 2; TopNVotingElt' 2 2; TopNVotingElt' 5 2;
                      TopNVotingElt' 3 2; TopNVotingElt' 1 2; TopNVotingElt' 6 1])
    by (vm_compute; reflexivity).
  assert (Hs0 : s ≡ₚ [TopNVotingElt' 4 2; TopNVotingElt' 2 2; TopNVotingElt' 5 2;
                      TopNVotingElt' 3 2; TopNVotingElt' 1 2; TopNVotingElt' 6 1]).
  { rewrite Hp, (survivors_perm_tracks order canonical_order cfg_default ds ds_default
                   Ho canonical_order_ok Htracks).
    symmetry. exact (sort_by_perm _ _ _ HS0). }
  pose proof (sorted_votes_unique _ _ Hs (sort_by_votes_sorted _ _ HS0) Hs0) as HV.
  pose proof (Permutation_length Hs0) as Hlen.
  destruct s as [|a1 [|a2 [|a3 [|a4 [|a5 [|a6 [|a7 s]]]]]]]; simpl in Hlen; try discriminate.
  simpl in HV. injection HV as V1 V2 V3 V4 V5 V6.
  assert (Ha6 : In a6 [TopNVotingElt' 4 2; TopNVotingElt' 2 2; TopNVotingElt' 5 2;
                       TopNVotingElt' 3 2; TopNVotingElt' 1 2; TopNVotingElt' 6 1])
    by (eapply Permutation_in; [exact Hs0|]; simpl; tauto).
  destruct Ha6 as [H|[H|[H|[H|[H|[H|[]]]]]]]; subst a6; simpl in V6; try discriminate.
  assert (H5 : [a1; a2; a3; a4; a5] ≡ₚ scenario_E_winners).
  { apply (Permutation_app_inv_r [TopNVotingElt' 6 1]). simpl.
    etransitivity; [exact Hs0|].
    apply (bool_decide_unpack _). vm_compute. exact I. }
  simpl. split; [reflexivity|]. split.
  - intros p. split; intros Hin.
    + by apply (Permutation_in _ H5).
    + by apply (Permutation_in _ (Permutation_sym H5)).
  - intros e He Heq. apply (Permutation_in _ H5) in He.
    destruct He as [<-|[<-|[<-|[<-|[<-|[]]]]]]; simpl in Heq; discriminate.
Qed.

(** The test's candidates other than the [0.5] entry of identity 6. *)
Definition ds_default_rest : list ObservationMetricResult :=
  [cand 1 2 10; cand 1 22 100; cand 2 21 100; cand 2 2 10;
   cand 3 22 100; cand 3 2 10; cand 4 23 100; cand 4 3 10;
   cand 5 24 100; cand 5 3 10; cand 6 25 100].

Lemma default_voting_scenario_E_witness :
  hash_order_ok canonical_order /\
  ds_default ≡ₚ cand 6 5 10 :: ds_default_rest /\
  omr_track (cand 6 5 10) = 6%N /\ omr_feat_dist (cand 6 5 10) = Some (f32_lit 5 10) /\
  map omr_track ds_default_rest ≡ₚ scenario_E_tracks /\
  (forall r, In r ds_default_rest ->
     exists e, omr_feat_dist r = Some e /\ f32_le e (f32_lit 32 100) = true) /\
  winners canonical_order cfg_default ds_default =
    Some [TopNVotingElt' 4 2; TopNVotingElt' 2 2; TopNVotingElt' 5 2;
          TopNVotingElt' 3 2; TopNVotingElt' 1 2] /\
  (length [TopNVotingElt' 4 2; TopNVotingElt' 2 2; TopNVotingElt' 5 2;
           TopNVotingElt' 3 2; TopNVotingElt' 1 2] = 5 /\
   (forall p, In p [TopNVotingElt' 4 2; TopNVotingElt' 2 2; TopNVotingElt' 5 2;
                   TopNVotingElt' 3 2; TopNVotingElt' 1 2] <-> In p scenario_E_winners) /\
   (forall e, In e [TopNVotingElt' 4 2; TopNVotingElt' 2 2; TopNVotingElt' 5 2;
                   TopNVotingElt' 3 2; TopNVotingElt' 1 2] -> track_id e <> 6%N)).
Proof.
  assert (Hd : ds_default ≡ₚ cand 6 5 10 :: ds_default_rest).
  { change ds_default with (ds_default_rest ++ [cand 6 5 10]).
    symmetry. apply Permutation_cons_append. }
  assert (Ht : map omr_track ds_default_rest ≡ₚ scenario_E_tracks) by reflexivity.
  assert (Hr : forall r, In r ds_default_rest ->
     exists e, omr_feat_dist r = Some e /\ f32_le e (f32_lit 32 100) = true).
  { intros r Hin.
    repeat (destruct Hin as [<-|Hin];
            [eexists; split; [reflexivity|vm_compute; reflexivity]|]).
    destruct Hin. }
  assert (Hw : winners canonical_order cfg_default ds_default =
    Some [TopNVotingElt' 4 2; TopNVotingElt' 2 2; TopNVotingElt' 5 2;
          TopNVotingElt' 3 2; TopNVotingElt' 1 2]) by (vm_compute; reflexivity).
  split; [exact canonical_order_ok|]. split; [exact Hd|].
  split; [reflexivity|]. split; [reflexivity|]. split; [exact Ht|]. split; [exact Hr|].
  split; [exact Hw|].
  exact (default_voting_scenario_E canonical_order ds_default (cand 6 5 10) ds_default_rest _
           canonical_order_ok Hd eq_refl eq_refl Ht Hr Hw).
Defined.

(** ** Further properties of [winners] *)

(** [winners] without the [sort_unstable] of the track ids. *)
Definition winners_unsorted (order : gmap N nat -> list (N * nat)) (cfg : TopNVoting)
    (ds : list ObservationMetricResult) : option (list TopNVotingElt) :=
  match sort_by votes_cmp (threshold cfg (order (counts (filtered_tracks cfg ds)))) with
  | Some s => Some (truncate (topn cfg) s)
  | None => None
  end.

(** The total of the counts held by a map. *)
Definition total_count (m : gmap N nat) : nat := list_sum (map snd (map_to_list m)).

(** The total of the votes of a list of results. *)
Definition sum_votes (l : list TopNVotingElt) : nat := list_sum (map votes l).

Lemma winners_nil_survivors order cfg ds :
  survivors order cfg ds = [] -> winners order cfg ds = Some [].
Proof.
  intros H. unfold winners. rewrite H. simpl. unfold truncate. by rewrite firstn_nil.
Qed.

Lemma vote_count_le_length cfg ds k : vote_count cfg ds k <= length ds.
Proof.
  unfold vote_count, retained. etransitivity; [apply filter_length_le|apply filter_length_le].
Qed.

Lemma total_count_insert_fresh m k v :
  m !! k = None -> total_count (<[k := v]> m) = v + total_count m.
Proof.
  intros H. unfold total_count. by rewrite (Permutation_map snd (map_to_list_insert m k v H)).
Qed.

Lemma total_count_step m t : total_count (counts_step m t) = S (total_count m).
Proof.
  unfold counts_step. destruct (m !! t) as [c|] eqn:E; simpl.
  - rewrite <- (insert_delete_id m t c E) at 2.
    rewrite <- insert_delete_eq.
    rewrite !total_count_insert_fresh by apply lookup_delete_eq. lia.
  - rewrite total_count_insert_fresh by done. lia.
Qed.

Lemma total_count_counts l : total_count (counts l) = length l.
Proof.
  assert (H : forall m, total_count (fold_left counts_step l m) = length l + total_count m).
  { induction l as [|t l IH]; intros m; simpl; [done|]. rewrite IH, total_count_step. lia. }
  unfold counts. rewrite H. unfold total_count. rewrite map_to_list_empty. simpl. lia.
Qed.

Lemma list_sum_filter_le (p : N * nat -> bool) (l : list (N * nat)) :
  list_sum (map snd (List.filter p l)) <= list_sum (map snd l).
Proof. induction l as [|x l IH]; simpl; [done|]. destruct (p x); simpl; lia. Qed.

Lemma sum_votes_threshold cfg it :
  sum_votes (threshold cfg it) = list_sum (map snd (List.filter (fun '(_, c) => min_votes cfg <=? c) it)).
Proof.
  unfold sum_votes, threshold. rewrite map_map. f_equal. apply map_ext. by intros [].
Qed.

Lemma sum_votes_firstn n l : sum_votes (firstn n l) <= sum_votes l.
Proof.
  unfold sum_votes. rewrite <- (firstn_skipn n l) at 2. rewrite map_app, list_sum_app. lia.
Qed.

Lemma sum_votes_perm l l' : l ≡ₚ l' -> sum_votes l = sum_votes l'.
Proof. intros H. unfold sum_votes. by rewrite (Permutation_map votes H). Qed.

Lemma length_filtered_tracks cfg ds :
  length (sort_unstable (filtered_tracks cfg ds)) = length (retained cfg ds).
Proof.
  rewrite (Permutation_length (sort_unstable_perm _)). unfold filtered_tracks, retained.
  apply length_map.
Qed.

Lemma winners_no_retained order cfg ds :
  hash_order_ok order -> retained cfg ds = [] -> winners order cfg ds = Some [].
Proof.
  intros Ho Hr. apply winners_nil_survivors. unfold survivors, filtered_tracks.
  unfold retained in Hr. rewrite Hr. simpl.
  assert (He : order (counts (sort_unstable [])) = []).
  { apply Permutation_nil_r. rewrite (Ho _). reflexivity. }
  by rewrite He.
Qed.

Lemma survivors_values order cfg ds k c :
  hash_order_ok order ->
  In (k, c) (order (counts (sort_unstable (filtered_tracks cfg ds)))) -> 1 <= c.
Proof.
  intros Ho Hin. rewrite <- list_elem_of_In, (Ho _), elem_of_map_to_list,
    counts_tracks_lookup in Hin. lia.
Qed.

(** A candidate the filter drops (no feature distance, or one that is not
    [<=] [max_distance]) can be removed from the input without changing
    the result. *)
Theorem winners_drop_filtered order cfg ds1 ds2 r :
  (omr_feat_dist r = None \/
   exists e, omr_feat_dist r = Some e /\ f32_le e (max_distance cfg) = false) ->
  winners order cfg (ds1 ++ r :: ds2) = winners order cfg (ds1 ++ ds2).
Proof.
  intros Hr.
  assert (Hf : feat_filter cfg r = false).
  { unfold feat_filter. destruct Hr as [-> | (e & -> & He)]; done. }
  apply winners_retained. unfold retained. rewrite !List.filter_app. simpl. by rewrite Hf.
Qed.

Lemma winners_drop_filtered_witness :
  (omr_feat_dist (cand 6 5 10) = None \/
   exists e, omr_feat_dist (cand 6 5 10) = Some e /\ f32_le e (max_distance cfg_default) = false) /\
  winners canonical_order cfg_default (ds_two ++ cand 6 5 10 :: []) =
  winners canonical_order cfg_default (ds_two ++ []).
Proof.
  assert (H : omr_feat_dist (cand 6 5 10) = None \/
    exists e, omr_feat_dist (cand 6 5 10) = Some e /\ f32_le e (max_distance cfg_default) = false).
  { right. exists (f32_lit 5 10). split; [reflexivity|]. vm_compute. reflexivity. }
  split; [exact H|]. exact (winners_drop_filtered canonical_order cfg_default ds_two [] _ H).
Defined.

(** With [topn = 0] the result is always empty. *)
Theorem winners_topn_zero order cfg ds :
  topn cfg = 0 -> winners order cfg ds = Some [].
Proof.
  intros H. unfold winners. destruct (sort_by_votes_some (survivors order cfg ds)) as [s ->].
  unfold truncate. by rewrite H.
Qed.

Lemma winners_topn_zero_witness :
  topn (TopNVoting' 0 (f32_lit 32 100) 1) = 0 /\
  winners canonical_order (TopNVoting' 0 (f32_lit 32 100) 1) ds_two = Some [].
Proof.
  split; [reflexivity|]. apply winners_topn_zero. reflexivity.
Defined.

(** With a NaN [max_distance] every comparison fails: the result is empty
    for every input. *)
Theorem winners_nan_max_distance order cfg ds :
  hash_order_ok order -> max_distance cfg = f32_nan -> winners order cfg ds = Some [].
Proof.
  intros Ho Hm. apply winners_no_retained; [done|].
  unfold retained. induction ds as [|r ds IH]; simpl; [done|].
  unfold feat_filter at 1. rewrite Hm.
  destruct (omr_feat_dist r) as [[]|]; simpl; done.
Qed.

Lemma winners_nan_max_distance_witness :
  hash_order_ok canonical_order /\ max_distance (TopNVoting' 5 f32_nan 1) = f32_nan /\
  winners canonical_order (TopNVoting' 5 f32_nan 1) ds_default = Some [].
Proof.
  split; [exact canonical_order_ok|]. split; [reflexivity|].
  apply winners_nan_max_distance; [exact canonical_order_ok|reflexivity].
Defined.

(** Only the top of the same ranking differs between two values of
    [topn]: for the same hash-map order, the result with the smaller
    [topn] is a prefix of the result with the larger one. *)
Theorem winners_topn_prefix order n1 n2 m v ds o1 o2 :
  n1 <= n2 ->
  winners order (TopNVoting' n1 m v) ds = Some o1 ->
  winners order (TopNVoting' n2 m v) ds = Some o2 ->
  o1 = firstn n1 o2.
Proof.
  intros Hn H1 H2. unfold winners in H1, H2.
  change (survivors order (TopNVoting' n1 m v) ds)
    with (survivors order (TopNVoting' n2 m v) ds) in H1.
  destruct (sort_by votes_cmp (survivors order (TopNVoting' n2 m v) ds)) as [s|];
    [|discriminate].
  injection H1 as <-. injection H2 as <-. unfold truncate. simpl.
  rewrite firstn_firstn. f_equal. lia.
Qed.

Lemma winners_topn_prefix_witness :
  1 <= 5 /\
  winners canonical_order (TopNVoting' 1 (f32_lit 32 100) 1) ds_default =
    Some [TopNVotingElt' 4 2] /\
  winners canonical_order (TopNVoting' 5 (f32_lit 32 100) 1) ds_default =
    Some [TopNVotingElt' 4 2; TopNVotingElt' 2 2; TopNVotingElt' 5 2;
          TopNVotingElt' 3 2; TopNVotingElt' 1 2] /\
  [TopNVotingElt' 4 2] =
    firstn 1 [TopNVotingElt' 4 2; TopNVotingElt' 2 2; TopNVotingElt' 5 2;
              TopNVotingElt' 3 2; TopNVotingElt' 1 2].
Proof.
  assert (H1 : winners canonical_order (TopNVoting' 1 (f32_lit 32 100) 1) ds_default =
    Some [TopNVotingElt' 4 2]) by (vm_compute; reflexivity).
  assert (H2 : winners canonical_order (TopNVoting' 5 (f32_lit 32 100) 1) ds_default =
    Some [TopNVotingElt' 4 2; TopNVotingElt' 2 2; TopNVotingElt' 5 2;
          TopNVotingElt' 3 2; TopNVotingElt' 1 2]) by (vm_compute; reflexivity).
  split; [lia|]. split; [exact H1|]. split; [exact H2|].
  exact (winners_topn_prefix canonical_order 1 5 _ _ ds_default _ _ ltac:(lia) H1 H2).
Defined.

(** Votes are never invented: every returned track has at least one vote,
    the votes of the result add up to at most the number of retained
    candidates, and to exactly that number when [min_votes <= 1] and
    nothing is truncated. *)
Theorem winners_vote_total order cfg ds out :
  hash_order_ok order -> winners order cfg ds = Some out ->
  (forall e, In e out -> 1 <= votes e) /\
  sum_votes out <= length (retained cfg ds) /\
  (min_votes cfg <= 1 -> length (survivors order cfg ds) <= topn cfg ->
     sum_votes out = length (retained cfg ds)).
Proof.
  intros Ho Hw.
  destruct (winners_Some _ _ _ _ Hw) as (s & _ & Hp & _ & Hout).
  set (m := counts (sort_unstable (filtered_tracks cfg ds))).
  assert (Htot : list_sum (map snd (order m)) = length (retained cfg ds)).
  { rewrite (Permutation_list_sum (Permutation_map snd (Ho m))).
    fold (total_count m). unfold m. by rewrite total_count_counts, length_filtered_tracks. }
  assert (Hs : sum_votes s = list_sum (map snd (List.filter (fun '(_, c) => min_votes cfg <=? c)
                                                  (order m)))).
  { rewrite (sum_votes_perm _ _ Hp). apply sum_votes_threshold. }
  split; [|split].
  - intros e He.
    apply (winners_In _ _ _ _ _ Hw), (survivors_In _ _ _ _ Ho) in He. lia.
  - rewrite Hout, <- Htot. etransitivity; [apply sum_votes_firstn|].
    rewrite Hs. apply list_sum_filter_le.
  - intros Hmin Hlen. rewrite Hout, firstn_all2, Hs, filter_all; [done| |].
    + intros [k c] Hin. apply Nat.leb_le.
      pose proof (survivors_values order cfg ds k c Ho Hin). lia.
    + by rewrite (Permutation_length Hp).
Qed.

Lemma winners_vote_total_witness :
  hash_order_ok canonical_order /\
  winners canonical_order cfg_default ds_default =
    Some [TopNVotingElt' 4 2; TopNVotingElt' 2 2; TopNVotingElt' 5 2;
          TopNVotingElt' 3 2; TopNVotingElt' 1 2] /\
  ((forall e, In e [TopNVotingElt' 4 2; TopNVotingElt' 2 2; TopNVotingElt' 5 2;
                   TopNVotingElt' 3 2; TopNVotingElt' 1 2] -> 1 <= votes e) /\
   sum_votes [TopNVotingElt' 4 2; TopNVotingElt' 2 2; TopNVotingElt' 5 2;
              TopNVotingElt' 3 2; TopNVotingElt' 1 2] <= length (retained cfg_default ds_default) /\
   (min_votes cfg_default <= 1 ->
      length (survivors canonical_order cfg_default ds_default) <= topn cfg_default ->
      sum_votes [TopNVotingElt' 4 2; TopNVotingElt' 2 2; TopNVotingElt' 5 2;
                 TopNVotingElt' 3 2; TopNVotingElt' 1 2] = length (retained cfg_default ds_default))).
Proof.
  assert (Hw : winners canonical_order cfg_default ds_default =
    Some [TopNVotingElt' 4 2; TopNVotingElt' 2 2; TopNVotingElt' 5 2;
          TopNVotingElt' 3 2; TopNVotingElt' 1 2]) by (vm_compute; reflexivity).
  split; [exact canonical_order_ok|]. split; [exact Hw|].
  exact (winners_vote_total canonical_order cfg_default ds_default _ canonical_order_ok Hw).
Defined.

(** With [min_votes <= 1] and room for every identity, every track carried
    by a retained candidate is returned, with its number of retained
    candidates as votes. *)
Theorem winners_complete order cfg ds out :
  hash_order_ok order -> min_votes cfg <= 1 ->
  length (survivors order cfg ds) <= topn cfg ->
  winners order cfg ds = Some out ->
  forall r, In r (retained cfg ds) ->
  In (TopNVotingElt' (omr_track r) (vote_count cfg ds (omr_track r))) out.
Proof.
  intros Ho Hmin Hlen Hw r Hr.
  destruct (winners_Some _ _ _ _ Hw) as (s & _ & Hp & _ & ->).
  rewrite firstn_all2 by (by rewrite (Permutation_length Hp)).
  apply (Permutation_in _ (Permutation_sym Hp)), (survivors_In _ _ _ _ Ho). simpl.
  pose proof (retained_vote_count cfg ds r Hr). split; [done|]. split; [done|]. lia.
Qed.

Lemma winners_complete_witness :
  hash_order_ok canonical_order /\ min_votes cfg_default <= 1 /\
  length (survivors canonical_order cfg_default ds_two) <= topn cfg_default /\
  winners canonical_order cfg_default ds_two = Some [TopNVotingElt' 1 2] /\
  In (TopNVotingElt' (omr_track (cand 1 2 10)) (vote_count cfg_default ds_two (omr_track (cand 1 2 10))))
     [TopNVotingElt' 1 2].
Proof.
  assert (Hw : winners canonical_order cfg_default ds_two = Some [TopNVotingElt' 1 2])
    by (vm_compute; reflexivity).
  assert (Hm : min_votes cfg_default <= 1) by (simpl; lia).
  assert (Hl : length (survivors canonical_order cfg_default ds_two) <= topn cfg_default)
    by (vm_compute; lia).
  assert (Hr : In (cand 1 2 10) (retained cfg_default ds_two)) by (vm_compute; left; reflexivity).
  split; [exact canonical_order_ok|]. split; [exact Hm|]. split; [exact Hl|]. split; [exact Hw|].
  exact (winners_complete canonical_order cfg_default ds_two _ canonical_order_ok Hm Hl Hw _ Hr).
Defined.

(** A [min_votes] above the number of candidates can never be reached:
    the result is empty. *)
Theorem winners_min_votes_unreachable order cfg ds :
  hash_order_ok order -> length ds < min_votes cfg -> winners order cfg ds = Some [].
Proof.
  intros Ho Hlt. apply winners_nil_survivors.
  destruct (survivors order cfg ds) as [|e l] eqn:E; [done|]. exfalso.
  assert (He : In e (survivors order cfg ds)) by (rewrite E; by left).
  apply (survivors_In _ _ _ _ Ho) in He as (Hv & _ & Hm).
  pose proof (vote_count_le_length cfg ds (track_id e)). lia.
Qed.

Lemma winners_min_votes_unreachable_witness :
  hash_order_ok canonical_order /\
  length ds_two < min_votes (TopNVoting' 5 (f32_lit 32 100) 3) /\
  winners canonical_order (TopNVoting' 5 (f32_lit 32 100) 3) ds_two = Some [].
Proof.
  assert (H : length ds_two < min_votes (TopNVoting' 5 (f32_lit 32 100) 3)) by (simpl; lia).
  split; [exact canonical_order_ok|]. split; [exact H|].
  exact (winners_min_votes_unreachable canonical_order _ ds_two canonical_order_ok H).
Defined.

(** The [sort_unstable] of the track ids before counting does not change
    the result: counting only depends on the multiset of ids. *)
Theorem winners_sort_unstable_redundant order cfg ds :
  winners_unsorted order cfg ds = winners order cfg ds.
Proof.
  unfold winners_unsorted, winners, survivors.
  by rewrite (counts_perm _ _ (sort_unstable_perm (filtered_tracks cfg ds))).
Qed.
